(** * benchmark_code/cut.py: a shallow embedding and its properties

    The program is a single loop: the requested field numbers are turned
    into list indices, every input line is stripped of its line end, split
    on tabs, indexed, joined with tabs again and printed.

    The embedding keeps the shape of the source.  Python's [str] is a byte
    string and is modelled by [string] (a list of 8-bit [ascii]); Python's
    integers are unbounded and are modelled by [Z]; an uncaught exception is
    a value of [exn]; standard output is a string that is threaded through
    the loop. *)

From Stdlib Require Import ZArith List String Ascii Bool Lia.
Import ListNotations.

Local Open Scope string_scope.
Local Open Scope Z_scope.

(** ** The Python primitives the program calls *)

Module Py.

(** The two characters the program names: '\t' and '\n'. *)
Definition tab : ascii := "009"%char.
Definition nl : ascii := "010"%char.
Definition TAB : string := String tab EmptyString.
Definition NL : string := String nl EmptyString.

(** [c in s] for a one-character [c]. *)
Fixpoint mem_char (c : ascii) (s : string) : bool :=
  match s with
  | EmptyString => false
  | String d s' => Ascii.eqb c d || mem_char c s'
  end.

(** [s.rstrip(chars)]: drop the longest suffix of [s] made of characters
    of [chars]. *)
Fixpoint rstrip (chars : string) (s : string) : string :=
  match s with
  | EmptyString => EmptyString
  | String c s' =>
      match rstrip chars s' with
      | EmptyString =>
          if mem_char c chars then EmptyString else String c EmptyString
      | r => String c r
      end
  end.

(** [s.split(sep)] for a one-character separator: the pieces between the
    occurrences of [sep]; always at least one piece. *)
Fixpoint split (sep : ascii) (s : string) : list string :=
  match s with
  | EmptyString => [EmptyString]
  | String c s' =>
      if Ascii.eqb c sep then EmptyString :: split sep s'
      else match split sep s' with
           | f :: fs => String c f :: fs
           | [] => [String c EmptyString]
           end
  end.

(** [sep.join(l)]. *)
Fixpoint join (sep : string) (l : list string) : string :=
  match l with
  | [] => EmptyString
  | [x] => x
  | x :: rest => x ++ sep ++ join sep rest
  end.

(** Exceptions the program can die of. *)
Inductive exn : Type :=
| IndexError
| IOError (filename : string).

Inductive result (A : Type) : Type :=
| Ok (a : A)
| Raise (e : exn).
Arguments Ok {A} a.
Arguments Raise {A} e.

Definition bind {A B} (m : result A) (k : A -> result B) : result B :=
  match m with
  | Ok a => k a
  | Raise e => Raise e
  end.

(** [l[i]] on a list: a negative index counts from the end, anything
    outside [-len(l), len(l)) raises IndexError. *)
Definition getitem {A} (l : list A) (i : Z) : result A :=
  let n := Z.of_nat (List.length l) in
  let j := if i <? 0 then i + n else i in
  if (0 <=? j) && (j <? n) then
    match nth_error l (Z.to_nat j) with
    | Some a => Ok a
    | None => Raise IndexError
    end
  else Raise IndexError.

(** [[f(x) for x in l]], evaluated left to right, stopping at the first
    exception. *)
Fixpoint comprehension {A B} (f : A -> result B) (l : list A)
  : result (list B) :=
  match l with
  | [] => Ok []
  | x :: l' =>
      bind (f x) (fun y =>
      bind (comprehension f l') (fun ys => Ok (y :: ys)))
  end.

(** Iterating over an open file: the content cut after every '\n'; each
    line keeps its '\n', a last line without one is yielded as it is. *)
Fixpoint readlines (s : string) : list string :=
  match s with
  | EmptyString => []
  | String c s' =>
      if Ascii.eqb c nl then String c EmptyString :: readlines s'
      else match readlines s' with
           | [] => [String c EmptyString]
           | l :: ls => String c l :: ls
           end
  end.

(** What the process sees of the outside: the content of standard input
    and, for a path, the content [open] returns (or [None] when the
    file cannot be opened). *)
Record world : Type := World {
  stdin : string;
  open : string -> option string
}.

(** One step of the [fileinput] iterator: a line, or the failure to open
    the next file. *)
Inductive item : Type :=
| Line (line : string)
| OpenFailed (filename : string).

(** The files are read in the order given, each to its end before the
    next is opened.  The name "-" is standard input, which is at its end
    once it was read. *)
Fixpoint fileinput_files (open : string -> option string)
         (stdin : string) (files : list string) : list item :=
  match files with
  | [] => []
  | f :: rest =>
      if String.eqb f "-" then
        (map Line (readlines stdin) ++ fileinput_files open EmptyString rest)%list
      else
        match open f with
        | Some content =>
            (map Line (readlines content) ++ fileinput_files open stdin rest)%list
        | None => [OpenFailed f]
        end
  end.

(** [fileinput.input(files)]: no file names means standard input. *)
Definition fileinput_input (w : world) (files : list string) : list item :=
  fileinput_files (open w) (stdin w)
    (match files with [] => ["-"] | _ => files end).

(** [print s] on a standard output that already holds [out].  Writes to
    standard output are taken to succeed: a full device or a closed pipe
    is outside the model. *)
Definition print (out : string) (s : string) : string := out ++ s ++ NL.

End Py.

(** ** The program *)

Module Cut.
Import Py.

(** What [parser.parse_args()] returns: [-f] takes integers, the
    positional arguments are file names. *)
Record Namespace : Type := Args {
  fields : list Z;
  files : list string
}.

(** The expression printed for one [line] (lines 18 and 19). *)
Definition line_output (field_indicies : list Z) (line : string)
  : result string :=
  let fields := split tab (rstrip NL line) in
  bind (comprehension (fun x => getitem fields x) field_indicies)
       (fun sel => Ok (join TAB sel)).

(** The [for] loop (lines 17 to 19) over what the iterator yields,
    with standard output as state.  The result is the final standard
    output and the exception that ended the loop, if any. *)
Fixpoint loop (field_indicies : list Z) (input : list item) (out : string)
  : string * option exn :=
  match input with
  | [] => (out, None)
  | OpenFailed f :: _ => (out, Some (IOError f))
  | Line line :: rest =>
      match line_output field_indicies line with
      | Ok s => loop field_indicies rest (print out s)
      | Raise e => (out, Some e)
      end
  end.

(** [main] after argument parsing (lines 15 to 19). *)
Definition main (w : world) (args : Namespace) : string * option exn :=
  let field_indicies := map (fun x => x - 1) (fields args) in
  loop field_indicies (fileinput_input w (files args)) EmptyString.

(** The exit status of the interpreter: 0 when [main] returns, 1 when an
    exception reaches the top level. *)
Definition exit_status (r : string * option exn) : Z :=
  match snd r with
  | None => 0
  | Some _ => 1
  end.

End Cut.

Import Py Cut.

(** ** Vocabulary of the properties *)

(** The per-line processing in terms of the field positions given on the
    command line: line 15 followed by lines 18 and 19. *)
Definition cut_line (positions : list Z) (line : string) : result string :=
  line_output (map (fun x => x - 1) positions) line.

(** The tab-separated fields of a line, line end aside. *)
Definition fields_of (line : string) : list string :=
  split tab (rstrip NL line).

Definition nfields (line : string) : Z := Z.of_nat (List.length (fields_of line)).

(** The field at a 1-based position, counted from the start of the line. *)
Definition field (line : string) (p : Z) : string :=
  nth (Z.to_nat (p - 1)) (fields_of line) EmptyString.

(** The field at a position [p <= 0], counted from the end of the line:
    0 is the last field, -1 the one before it. *)
Definition field_from_end (line : string) (p : Z) : string :=
  nth (Z.to_nat (- p)) (rev (fields_of line)) EmptyString.

(** The largest requested position. *)
Definition max_position (positions : list Z) : Z :=
  match positions with
  | [] => 0
  | p :: rest => fold_right Z.max p rest
  end.


(** A string of [k] newlines. *)
Fixpoint newlines (k : nat) : string :=
  match k with
  | O => EmptyString
  | S k' => String nl (newlines k')
  end.

(** Removal of a single trailing newline, as the specification words the
    stripping step: at most one character goes. *)
Fixpoint strip_one_newline (s : string) : string :=
  match s with
  | EmptyString => EmptyString
  | String c EmptyString => if Ascii.eqb c nl then EmptyString else s
  | String c s' => String c (strip_one_newline s')
  end.

(** The text of the lines [outs] as [print] leaves it on standard output. *)
Fixpoint printed (outs : list string) : string :=
  match outs with
  | [] => EmptyString
  | o :: outs' => o ++ NL ++ printed outs'
  end.

(** The outputs of the lines processed before the first exception. *)
Fixpoint outputs (field_indicies : list Z) (input : list item) : list string :=
  match input with
  | Line l :: rest =>
      match line_output field_indicies l with
      | Ok s => s :: outputs field_indicies rest
      | Raise _ => []
      end
  | _ => []
  end.

(** The element a valid index [i] of a list of length [n] denotes. *)
Definition denoted (fs : list string) (i : Z) : string :=
  nth (Z.to_nat (if i <? 0 then i + Z.of_nat (List.length fs) else i))
      fs EmptyString.

(** A world in which the paths [a], [b] and [c] hold the given contents. *)
Definition three_files (a b c : string) (A B C : string) : world :=
  World EmptyString
        (fun f => if String.eqb f a then Some A
                  else if String.eqb f b then Some B
                  else if String.eqb f c then Some C
                  else None).


(** An item of the input that lets the loop go on: a line on which every
    requested position is in the range of Python's indexing. *)
Definition item_fine (positions : list Z) (it : item) : Prop :=
  match it with
  | Line l => Forall (fun p => - nfields l < p <= nfields l) positions
  | OpenFailed _ => False
  end.

(** The positions that select from an input line what the positions
    [later] select from the line that the positions [earlier] printed. *)
Definition compose_positions (earlier later : list Z) : list Z :=
  map (fun q => nth (Z.to_nat (q - 1)) earlier 0) later.

(** Whether [fileinput] gets through all of [files]: each is standard
    input or can be opened. *)
Definition all_open (open : string -> option string) (files : list string)
  : bool :=
  forallb (fun f => String.eqb f "-"
                    || match open f with Some _ => true | None => false end)
          files.

(** What is left of standard input once [files] were read. *)
Definition stdin_after (stdin : string) (files : list string) : string :=
  if existsb (fun f => String.eqb f "-") files then EmptyString else stdin.

(** The field a position selects: counted from the start of the line for
    [p >= 1], from the end for [p <= 0]. *)
Definition selected (line : string) (p : Z) : string :=
  if 1 <=? p then field line p else field_from_end line p.

Example ex_alice :
  line_output [0; 2] ("alice" ++ TAB ++ "30" ++ TAB ++ "engineer" ++ NL)
  = Ok ("alice" ++ TAB ++ "engineer").
Proof. reflexivity. Qed.

Example ex_alice_fault :
  line_output [0; 2] ("alice" ++ TAB ++ "30" ++ NL) = Raise IndexError.
Proof. reflexivity. Qed.

Example ex_readlines :
  readlines ("a" ++ NL ++ NL ++ "b") = ["a" ++ NL; NL; "b"].
Proof. reflexivity. Qed.

Example ex_rstrip : rstrip NL ("a" ++ NL ++ "b" ++ NL ++ NL) = "a" ++ NL ++ "b".
Proof. reflexivity. Qed.

Example ex_split : split tab (TAB ++ "a" ++ TAB) = [""; "a"; ""].
Proof. reflexivity. Qed.

(** ** Strings: [mem_char], [split], [join] *)

Section Strings.

Lemma append_empty_r (s : string) : s ++ "" = s.
Proof. induction s as [|c s IH]; simpl; [reflexivity | now rewrite IH]. Qed.

Lemma append_assoc (a b c : string) : (a ++ b) ++ c = a ++ b ++ c.
Proof. induction a as [|x a IH]; simpl; [reflexivity | now rewrite IH]. Qed.

Lemma mem_char_app (c : ascii) (a b : string) :
  mem_char c (a ++ b) = mem_char c a || mem_char c b.
Proof.
  induction a as [|x a IH]; simpl; [reflexivity|].
  now rewrite IH, orb_assoc.
Qed.

Lemma split_not_nil (sep : ascii) (s : string) : split sep s <> [].
Proof.
  destruct s as [|c s]; simpl; [discriminate|].
  destruct (Ascii.eqb c sep); [discriminate|].
  destruct (split sep s); discriminate.
Qed.


(** No piece contains the separator, and no piece contains a character
    the string does not contain. *)
Lemma split_pieces (sep c : ascii) (s f : string) :
  In f (split sep s) ->
  mem_char sep f = false /\ (mem_char c s = false -> mem_char c f = false).
Proof.
  revert f. induction s as [|d s IH]; intros f Hin.
  - destruct Hin as [<-|[]]. now split.
  - simpl in Hin. destruct (Ascii.eqb_spec d sep) as [->|Hne].
    + destruct Hin as [<-|Hin]; [now split|].
      destruct (IH f Hin) as [H1 H2]. split; [assumption|].
      simpl. intros H. apply orb_false_iff in H. now apply H2.
    + pose proof (split_not_nil sep s) as Hnil.
      destruct (split sep s) as [|g gs]; [contradiction|].
      destruct Hin as [<-|Hin].
      * destruct (IH g (or_introl eq_refl)) as [H1 H2]. split.
        -- simpl. rewrite H1, orb_false_r.
           apply Ascii.eqb_neq. congruence.
        -- simpl. intros H. apply orb_false_iff in H as [Ha Hb].
           now rewrite Ha, H2.
      * destruct (IH f (or_intror Hin)) as [H1 H2]. split; [assumption|].
        simpl. intros H. apply orb_false_iff in H. now apply H2.
Qed.

Lemma split_no_sep (sep : ascii) (s : string) :
  mem_char sep s = false -> split sep s = [s].
Proof.
  induction s as [|d s IH]; [reflexivity|].
  simpl. intros H. apply orb_false_iff in H as [Ha Hb].
  rewrite Ascii.eqb_sym, Ha, (IH Hb). reflexivity.
Qed.

Lemma split_app_sep (sep : ascii) (x rest : string) :
  mem_char sep x = false ->
  split sep (x ++ String sep rest) = x :: split sep rest.
Proof.
  induction x as [|d x IH]; simpl; intros H.
  - now rewrite Ascii.eqb_refl.
  - apply orb_false_iff in H as [Ha Hb].
    now rewrite Ascii.eqb_sym, Ha, (IH Hb).
Qed.

(** Splitting what was joined gives the pieces back, provided there is
    a piece and none holds the separator. *)
Lemma split_join (sep : ascii) (fs : list string) :
  fs <> [] ->
  Forall (fun f => mem_char sep f = false) fs ->
  split sep (join (String sep "") fs) = fs.
Proof.
  induction fs as [|f fs IH]; [congruence|].
  intros _ Hall. inversion Hall as [|? ? Hf Hfs]; subst.
  destruct fs as [|g fs].
  - simpl. now apply split_no_sep.
  - change (join (String sep "") (f :: g :: fs))
      with (f ++ String sep (join (String sep "") (g :: fs))).
    rewrite split_app_sep by assumption.
    f_equal. apply IH; [discriminate | assumption].
Qed.

Lemma mem_char_join (c : ascii) (sep : string) (fs : list string) :
  mem_char c sep = false ->
  Forall (fun f => mem_char c f = false) fs ->
  mem_char c (join sep fs) = false.
Proof.
  intros Hsep. induction fs as [|f fs IH]; intros Hall; [reflexivity|].
  inversion Hall as [|? ? Hf Hfs]; subst.
  destruct fs as [|g fs]; [assumption|].
  change (join sep (f :: g :: fs)) with (f ++ sep ++ join sep (g :: fs)).
  rewrite !mem_char_app, Hf, Hsep, (IH Hfs). reflexivity.
Qed.

End Strings.

(** ** Line ends: [rstrip] and [readlines] *)

Section LineEnds.

Lemma mem_char_NL (c : ascii) : mem_char c NL = Ascii.eqb c nl.
Proof. unfold NL. cbn [mem_char]. apply orb_false_r. Qed.

Lemma rstrip_cons (c : ascii) (s : string) :
  rstrip NL (String c s) =
  match rstrip NL s with
  | EmptyString => if Ascii.eqb c nl then EmptyString else String c EmptyString
  | r => String c r
  end.
Proof. cbn [rstrip]. now rewrite mem_char_NL. Qed.

(** A string without a newline is left alone. *)
Lemma rstrip_no_nl (s : string) : mem_char nl s = false -> rstrip NL s = s.
Proof.
  induction s as [|c s IH]; [reflexivity|].
  cbn [mem_char]. intros H. apply orb_false_iff in H as [Ha Hb].
  rewrite rstrip_cons, (IH Hb). destruct s; [|reflexivity].
  now rewrite Ascii.eqb_sym, Ha.
Qed.

(** One more newline at the end changes nothing. *)
Lemma rstrip_app_NL (s : string) : rstrip NL (s ++ NL) = rstrip NL s.
Proof.
  induction s as [|c s IH]; [reflexivity|].
  cbn [append]. now rewrite !rstrip_cons, IH.
Qed.

Lemma rstrip_app_newlines (k : nat) :
  forall s, rstrip NL (s ++ newlines k) = rstrip NL s.
Proof.
  induction k as [|k IH]; intros s; cbn [newlines].
  - now rewrite append_empty_r.
  - change (String nl (newlines k)) with (NL ++ newlines k).
    now rewrite <- append_assoc, IH, rstrip_app_NL.
Qed.

(** What [rstrip] removes is a run of newlines at the end. *)
Lemma rstrip_decomp (s : string) :
  exists k, s = rstrip NL s ++ newlines k.
Proof.
  induction s as [|c s [k IH]]; [now exists O|].
  rewrite rstrip_cons. destruct (rstrip NL s) as [|d r] eqn:E.
  - cbn [append] in IH. destruct (Ascii.eqb_spec c nl) as [->|Hne].
    + exists (S k). cbn [append newlines]. now rewrite <- IH.
    + exists k. cbn [append]. now rewrite <- IH.
  - exists k. cbn [append] in *. now rewrite <- IH.
Qed.

(** What [rstrip] returns does not end in a newline. *)
Lemma rstrip_no_trailing_nl (s t : string) : rstrip NL s <> t ++ NL.
Proof.
  revert t. induction s as [|c s IH]; intros t.
  - destruct t; discriminate.
  - rewrite rstrip_cons. destruct (rstrip NL s) as [|d r] eqn:E.
    + destruct (Ascii.eqb_spec c nl) as [->|Hne].
      * destruct t; discriminate.
      * destruct t as [|x t]; cbn [append]; [unfold NL; congruence|].
        destruct t; discriminate.
    + destruct t as [|x t]; cbn [append]; [discriminate|].
      intros H. injection H as _ H. exact (IH t H).
Qed.

Lemma readlines_nil (s : string) : readlines s = [] -> s = "".
Proof.
  destruct s as [|c s]; [reflexivity|].
  cbn [readlines]. destruct (Ascii.eqb c nl); [discriminate|].
  destruct (readlines s); discriminate.
Qed.

(** The lines put together are the content. *)
Lemma concat_readlines (s : string) : String.concat "" (readlines s) = s.
Proof.
  assert (Hc : forall l ls, String.concat "" (l :: ls) = l ++ String.concat "" ls).
  { intros l [|l' ls]; cbn [String.concat]; [now rewrite append_empty_r | reflexivity]. }
  induction s as [|c s IH]; [reflexivity|].
  cbn [readlines]. destruct (Ascii.eqb_spec c nl) as [->|Hne].
  - rewrite Hc, IH. reflexivity.
  - destruct (readlines s) as [|l ls] eqn:E.
    + apply readlines_nil in E. now subst.
    + rewrite Hc in *. cbn [append]. now rewrite IH.
Qed.

(** A line is a newline-free text followed by one newline, or, for a
    last line without line end, a non-empty newline-free text. *)
Lemma readlines_shape (s l : string) :
  In l (readlines s) ->
  exists body, mem_char nl body = false /\
               (l = body ++ NL \/ (l = body /\ body <> "")).
Proof.
  revert l. induction s as [|c s IH]; intros l Hin; [destruct Hin|].
  cbn [readlines] in Hin. destruct (Ascii.eqb_spec c nl) as [->|Hne].
  - destruct Hin as [<-|Hin]; [|now apply IH].
    exists "". split; [reflexivity | now left].
  - assert (Hc : Ascii.eqb nl c = false)
      by (apply Ascii.eqb_neq; congruence).
    destruct (readlines s) as [|l0 ls] eqn:E.
    + destruct Hin as [<-|[]]. exists (String c ""). split.
      * cbn [mem_char]. now rewrite Hc.
      * right. split; [reflexivity | discriminate].
    + destruct Hin as [<-|Hin]; [|apply IH; now right].
      destruct (IH l0 (or_introl eq_refl)) as (body & Hb & Hl).
      exists (String c body). split.
      * cbn [mem_char]. now rewrite Hc, Hb.
      * destruct Hl as [->|[-> _]]; [now left | right].
        split; [reflexivity | discriminate].
Qed.

(** Cutting into lines commutes with concatenation after a newline. *)
Lemma readlines_app_NL (a b : string) :
  readlines ((a ++ NL) ++ b) = (readlines (a ++ NL) ++ readlines b)%list.
Proof.
  induction a as [|c a IH]; [reflexivity|].
  cbn [append readlines]. destruct (Ascii.eqb c nl).
  - cbn [app]. f_equal. exact IH.
  - rewrite IH. destruct (readlines (a ++ NL)) as [|l ls] eqn:E.
    + apply readlines_nil in E. destruct a; discriminate.
    + reflexivity.
Qed.

Lemma strip_one_newline_app_NL (body : string) :
  strip_one_newline (body ++ NL) = body.
Proof.
  induction body as [|c body IH]; [reflexivity|].
  cbn [append strip_one_newline]. rewrite IH.
  destruct (body ++ NL) eqn:E; [|reflexivity].
  destruct body; discriminate.
Qed.

Lemma strip_one_newline_no_nl (s : string) :
  mem_char nl s = false -> strip_one_newline s = s.
Proof.
  induction s as [|c s IH]; [reflexivity|].
  cbn [mem_char]. intros H. apply orb_false_iff in H as [Ha Hb].
  cbn [strip_one_newline]. rewrite (IH Hb).
  destruct s; [|reflexivity].
  now rewrite Ascii.eqb_sym, Ha.
Qed.

(** On a line as the file iterator yields it, [rstrip] takes away the one
    newline at its end, if there is one, and the rest holds no newline. *)
Lemma rstrip_line (content line : string) :
  In line (readlines content) ->
  rstrip NL line = strip_one_newline line /\
  mem_char nl (rstrip NL line) = false /\
  (line = rstrip NL line ++ NL \/ line = rstrip NL line).
Proof.
  intros Hin.
  destruct (readlines_shape content line Hin) as (body & Hb & [->|[-> _]]).
  - rewrite rstrip_app_NL, strip_one_newline_app_NL, (rstrip_no_nl _ Hb).
    repeat split; [exact Hb | now left].
  - rewrite (strip_one_newline_no_nl _ Hb), (rstrip_no_nl _ Hb).
    repeat split; [exact Hb | now right].
Qed.

Lemma readlines_app (A B : string) :
  A = "" \/ (exists A', A = A' ++ NL) ->
  readlines (A ++ B) = (readlines A ++ readlines B)%list.
Proof.
  intros [->|[A' ->]]; [reflexivity | apply readlines_app_NL].
Qed.

(** A newline-free text followed by a newline is one line, and so is a
    non-empty newline-free text alone. *)
Lemma readlines_one_line (body : string) :
  mem_char nl body = false ->
  readlines (body ++ NL) = [body ++ NL] /\
  (body <> "" -> readlines body = [body]).
Proof.
  induction body as [|c body IH]; [now split|].
  cbn [mem_char]. intros H. apply orb_false_iff in H as [Hc Hb].
  destruct (IH Hb) as [IH1 IH2].
  cbn [append readlines]. rewrite Ascii.eqb_sym, Hc, IH1.
  split; [reflexivity | intros _].
  destruct body as [|d body]; [reflexivity|].
  rewrite IH2 by discriminate. reflexivity.
Qed.

End LineEnds.

(** ** Indexing and the list comprehension *)

Section Indexing.

Lemma getitem_in_range (fs : list string) (i : Z) :
  - Z.of_nat (List.length fs) <= i < Z.of_nat (List.length fs) ->
  getitem fs i = Ok (denoted fs i).
Proof.
  intros H. unfold getitem, denoted.
  set (n := Z.of_nat (List.length fs)) in *.
  set (j := if i <? 0 then i + n else i).
  assert (Hj : 0 <= j < n) by (subst j; destruct (Z.ltb_spec i 0); lia).
  replace ((0 <=? j) && (j <? n)) with true
    by (symmetry; apply andb_true_iff; split;
        [apply Z.leb_le | apply Z.ltb_lt]; lia).
  destruct (nth_error fs (Z.to_nat j)) as [a|] eqn:E.
  - f_equal. symmetry. now apply nth_error_nth.
  - apply nth_error_None in E. subst n. lia.
Qed.

Lemma getitem_out_of_range (fs : list string) (i : Z) :
  i < - Z.of_nat (List.length fs) \/ Z.of_nat (List.length fs) <= i ->
  getitem fs i = Raise IndexError.
Proof.
  intros H. unfold getitem.
  set (n := Z.of_nat (List.length fs)) in *.
  set (j := if i <? 0 then i + n else i).
  assert (Hj : j < 0 \/ n <= j) by (subst j; destruct (Z.ltb_spec i 0); lia).
  replace ((0 <=? j) && (j <? n)) with false; [reflexivity|].
  symmetry. apply andb_false_iff.
  destruct Hj; [left; apply Z.leb_gt | right; apply Z.ltb_ge]; lia.
Qed.

Lemma denoted_In (fs : list string) (i : Z) :
  - Z.of_nat (List.length fs) <= i < Z.of_nat (List.length fs) ->
  In (denoted fs i) fs.
Proof.
  intros H. unfold denoted. apply nth_In.
  destruct (Z.ltb_spec i 0); lia.
Qed.

(** The comprehension over [fields[x]] either finds every index in range
    and returns the denoted elements in the order of the indices, or meets
    an index out of range and raises IndexError. *)
Lemma comprehension_getitem (fs : list string) (l : list Z) :
  let n := Z.of_nat (List.length fs) in
  (Forall (fun i => - n <= i < n) l /\
   comprehension (fun x => getitem fs x) l = Ok (map (denoted fs) l))
  \/
  (Exists (fun i => i < - n \/ n <= i) l /\
   comprehension (fun x => getitem fs x) l = Raise IndexError).
Proof.
  intros n. induction l as [|i l IH].
  - left. split; [constructor | reflexivity].
  - cbn [comprehension map].
    destruct (Z_lt_ge_dec i (- n)) as [Hlo|Hlo];
      [|destruct (Z_lt_ge_dec i n) as [Hhi|Hhi]].
    + right. split; [left; now left|].
      rewrite getitem_out_of_range by (left; exact Hlo). reflexivity.
    + rewrite getitem_in_range by (subst n; lia). cbn [bind].
      destruct IH as [[Hall ->]|[Hex ->]].
      * left. split; [constructor; [lia | assumption] | reflexivity].
      * right. split; [now right | reflexivity].
    + right. split; [left; right; lia|].
      rewrite getitem_out_of_range by (right; subst n; lia). reflexivity.
Qed.

Lemma Forall_Exists_absurd (P Q : Z -> Prop) (l : list Z) :
  (forall x, P x -> Q x -> False) -> Forall P l -> Exists Q l -> False.
Proof.
  intros HPQ Hall Hex. apply Exists_exists in Hex as (x & Hin & Hq).
  rewrite Forall_forall in Hall. exact (HPQ x (Hall x Hin) Hq).
Qed.

(** The printed text of a line, by cases on the indices. *)
Lemma line_output_cases (field_indicies : list Z) (line : string) :
  let fs := fields_of line in
  let n := nfields line in
  (Forall (fun i => - n <= i < n) field_indicies /\
   line_output field_indicies line = Ok (join TAB (map (denoted fs) field_indicies)))
  \/
  (Exists (fun i => i < - n \/ n <= i) field_indicies /\
   line_output field_indicies line = Raise IndexError).
Proof.
  intros fs n. unfold line_output. fold (fields_of line). fold fs.
  destruct (comprehension_getitem fs field_indicies) as [[H ->]|[H ->]];
    [left | right]; (split; [exact H | reflexivity]).
Qed.

Lemma line_output_ok (field_indicies : list Z) (line : string) :
  Forall (fun i => - nfields line <= i < nfields line) field_indicies ->
  line_output field_indicies line
  = Ok (join TAB (map (denoted (fields_of line)) field_indicies)).
Proof.
  intros Hall.
  destruct (line_output_cases field_indicies line) as [[_ H]|[Hex _]];
    [exact H | exfalso].
  eapply Forall_Exists_absurd; [|exact Hall|exact Hex].
  cbv beta. intros; lia.
Qed.

Lemma line_output_raise (field_indicies : list Z) (line : string) :
  line_output field_indicies line = Raise IndexError <->
  Exists (fun i => i < - nfields line \/ nfields line <= i) field_indicies.
Proof.
  destruct (line_output_cases field_indicies line) as [[Hall H]|[Hex H]];
    rewrite H; split; try discriminate; try tauto.
  intros Hex. exfalso.
  eapply Forall_Exists_absurd; [|exact Hall|exact Hex].
  cbv beta. intros; lia.
Qed.

(** IndexError is the only exception a line can raise. *)
Lemma line_output_exn (field_indicies : list Z) (line : string) (e : exn) :
  line_output field_indicies line = Raise e -> e = IndexError.
Proof.
  destruct (line_output_cases field_indicies line) as [[_ H]|[_ H]];
    rewrite H; congruence.
Qed.

Lemma nfields_pos (line : string) : 1 <= nfields line.
Proof.
  unfold nfields, fields_of.
  pose proof (split_not_nil tab (rstrip NL line)) as H.
  destruct (split tab (rstrip NL line)); [contradiction | cbn [List.length]; lia].
Qed.

End Indexing.

(** ** The loop *)

Section Loop.

Variable field_indicies : list Z.

Lemma printed_app (a b : list string) :
  printed (a ++ b) = printed a ++ printed b.
Proof.
  induction a as [|o a IH]; [reflexivity|].
  cbn [app printed]. now rewrite IH, !append_assoc.
Qed.

(** Standard output only grows: it is what it was, followed by the
    outputs of the lines processed. *)
Lemma loop_fst (input : list item) (out : string) :
  fst (loop field_indicies input out)
  = out ++ printed (outputs field_indicies input).
Proof.
  revert out. induction input as [|[line|f] rest IH]; intros out;
    cbn [loop outputs printed fst]; try now rewrite append_empty_r.
  destruct (line_output field_indicies line) as [s|e].
  - rewrite IH. unfold print. cbn [printed]. now rewrite !append_assoc.
  - cbn [fst printed]. now rewrite append_empty_r.
Qed.

(** How the loop ends does not depend on what was printed before. *)
Lemma loop_snd (input : list item) (out out' : string) :
  snd (loop field_indicies input out) = snd (loop field_indicies input out').
Proof.
  revert out out'. induction input as [|[line|f] rest IH]; intros out out';
    cbn [loop snd]; try reflexivity.
  destruct (line_output field_indicies line); [apply IH | reflexivity].
Qed.

Lemma loop_app (a b : list item) (out : string) :
  loop field_indicies (a ++ b) out =
  match loop field_indicies a out with
  | (out', None) => loop field_indicies b out'
  | r => r
  end.
Proof.
  revert out. induction a as [|[line|f] a IH]; intros out;
    cbn [app loop]; try reflexivity.
  destruct (line_output field_indicies line); [apply IH | reflexivity].
Qed.

Lemma outputs_app_fault (before after : list item) (line : string) (e : exn) :
  line_output field_indicies line = Raise e ->
  outputs field_indicies (before ++ Line line :: after)
  = outputs field_indicies before.
Proof.
  intros Hline. induction before as [|[l|f] before IH]; cbn [app outputs].
  - now rewrite Hline.
  - destruct (line_output field_indicies l); [now rewrite IH | reflexivity].
  - reflexivity.
Qed.

Lemma loop_app_fault (before after : list item) (line : string) (e : exn)
      (out : string) :
  line_output field_indicies line = Raise e ->
  snd (loop field_indicies (before ++ Line line :: after) out) <> None /\
  (List.length (outputs field_indicies before) = List.length before ->
   snd (loop field_indicies (before ++ Line line :: after) out) = Some e).
Proof.
  intros Hline. revert out.
  induction before as [|[l|f] before IH]; intros out; cbn [app loop outputs].
  - rewrite Hline. cbn [snd]. split; [discriminate | reflexivity].
  - destruct (line_output field_indicies l) as [s|e'].
    + destruct (IH (print out s)) as [H1 H2]. split; [exact H1|].
      cbn [List.length]. intros Hlen. apply H2. lia.
    + cbn [snd List.length]. split; [discriminate | intros; lia].
  - cbn [snd List.length]. split; [discriminate | intros; lia].
Qed.

End Loop.

(** ** The input iterator *)

Section Input.

(** Every line the iterator yields is a line of some content. *)
Lemma fileinput_files_lines (open : string -> option string)
      (files : list string) :
  forall stdin l,
    In (Line l) (fileinput_files open stdin files) ->
    exists content, In l (readlines content).
Proof.
  induction files as [|f rest IH]; intros stdin l Hin; [destruct Hin|].
  cbn [fileinput_files] in Hin. destruct (String.eqb f "-").
  - apply in_app_or in Hin as [Hin|Hin]; [|now apply (IH "")].
    apply in_map_iff in Hin as (l' & [= ->] & Hin). now exists stdin.
  - destruct (open f) as [content|].
    + apply in_app_or in Hin as [Hin|Hin]; [|now apply (IH stdin)].
      apply in_map_iff in Hin as (l' & [= ->] & Hin). now exists content.
    + destruct Hin as [Hin|[]]. discriminate.
Qed.

(** Empty contents yield nothing. *)
Lemma fileinput_files_empty (open : string -> option string)
      (files : list string) :
  forall stdin,
    (In "-" files -> stdin = "") ->
    (forall f, In f files -> f <> "-" -> open f = Some "") ->
    fileinput_files open stdin files = [].
Proof.
  induction files as [|f rest IH]; intros stdin Hin Hopen; [reflexivity|].
  cbn [fileinput_files]. destruct (String.eqb_spec f "-") as [->|Hne].
  - rewrite (Hin (or_introl eq_refl)). cbn [readlines map app].
    apply IH; [reflexivity | intros g Hg; apply Hopen; now right].
  - rewrite (Hopen f (or_introl eq_refl) Hne). cbn [readlines map app].
    apply IH; [intros H; apply Hin; now right
              | intros g Hg; apply Hopen; now right].
Qed.

(** The text printed for a line holds no newline when the line, its line
    end aside, holds none; such are the lines of a file. *)
Lemma line_output_no_nl_stripped (field_indicies : list Z) (line o : string) :
  mem_char nl (rstrip NL line) = false ->
  line_output field_indicies line = Ok o ->
  mem_char nl o = false.
Proof.
  intros Hnl Ho.
  destruct (line_output_cases field_indicies line) as [[Hall H]|[_ H]];
    rewrite H in Ho; [|discriminate].
  injection Ho as <-. apply mem_char_join; [reflexivity|].
  rewrite Forall_map. eapply Forall_impl; [|exact Hall].
  cbv beta. intros i Hi.
  apply (proj2 (split_pieces tab nl (rstrip NL line) _
                             (denoted_In (fields_of line) i Hi))).
  exact Hnl.
Qed.

Lemma line_output_no_nl (field_indicies : list Z) (content line o : string) :
  In line (readlines content) ->
  line_output field_indicies line = Ok o ->
  mem_char nl o = false.
Proof.
  intros Hin. apply line_output_no_nl_stripped.
  exact (proj1 (proj2 (rstrip_line content line Hin))).
Qed.

Lemma outputs_no_nl (field_indicies : list Z) (input : list item) :
  (forall l, In (Line l) input -> exists content, In l (readlines content)) ->
  Forall (fun o => mem_char nl o = false) (outputs field_indicies input).
Proof.
  induction input as [|[l|f] rest IH]; intros Hlines; cbn [outputs];
    try constructor.
  destruct (line_output field_indicies l) as [o|e] eqn:E; constructor.
  - destruct (Hlines l (or_introl eq_refl)) as [content Hin].
    exact (line_output_no_nl field_indicies content l o Hin E).
  - apply IH. intros l' Hl'. apply Hlines. now right.
Qed.

End Input.

(** ** Positions *)

Section Positions.


Lemma max_position_In (positions : list Z) :
  positions <> [] -> In (max_position positions) positions.
Proof.
  destruct positions as [|p rest]; [congruence|]. intros _.
  cbn [max_position]. induction rest as [|r rest IH]; cbn [fold_right].
  - now left.
  - destruct (Z.max_spec r (fold_right Z.max p rest)) as [[_ ->]|[_ ->]].
    + destruct IH as [IH|IH]; [now left | right; now right].
    + right. now left.
Qed.

(** For a position counted from the start, the index denotes the field. *)
Lemma denoted_field (line : string) (p : Z) :
  1 <= p -> denoted (fields_of line) (p - 1) = field line p.
Proof.
  intros Hp. unfold denoted, field.
  destruct (Z.ltb_spec (p - 1) 0); [lia | reflexivity].
Qed.

(** For a position counted from the end as well. *)
Lemma denoted_field_from_end (line : string) (p : Z) :
  p <= 0 -> 1 - p <= nfields line ->
  denoted (fields_of line) (p - 1) = field_from_end line p.
Proof.
  intros Hp Hn. unfold denoted, field_from_end, nfields in *.
  destruct (Z.ltb_spec (p - 1) 0); [|lia].
  rewrite rev_nth by lia. f_equal. lia.
Qed.

Lemma cut_line_selects (positions : list Z) (line : string) :
  Forall (fun p => 1 <= p <= nfields line) positions ->
  cut_line positions line = Ok (join TAB (map (field line) positions)).
Proof.
  intros Hall. unfold cut_line. rewrite line_output_ok.
  - rewrite map_map. do 2 f_equal. apply map_ext_in.
    intros p Hin. rewrite Forall_forall in Hall.
    apply denoted_field. now apply Hall.
  - rewrite Forall_map. eapply Forall_impl; [|exact Hall].
    cbv beta. intros; lia.
Qed.

(** A line faults exactly when some position is out of its range. *)
Lemma cut_line_raise (positions : list Z) (line : string) :
  cut_line positions line = Raise IndexError <->
  Exists (fun p => p <= - nfields line \/ nfields line < p) positions.
Proof.
  unfold cut_line. rewrite line_output_raise, Exists_map.
  split; intros H; (eapply Exists_impl; [|exact H]); cbv beta; intros; lia.
Qed.



(** A field of a line holds no tab, and no newline once the line comes
    from the file iterator. *)
Lemma field_In (line : string) (p : Z) :
  1 <= p <= nfields line -> In (field line p) (fields_of line).
Proof.
  intros H. unfold field. apply nth_In. unfold nfields in H. lia.
Qed.

Lemma fields_of_no_tab (line : string) :
  Forall (fun f => mem_char tab f = false) (fields_of line).
Proof.
  apply Forall_forall. intros f Hin.
  exact (proj1 (split_pieces tab tab _ f Hin)).
Qed.

Lemma nth_0_rev_last (l : list string) :
  nth 0 (rev l) EmptyString = last l EmptyString.
Proof.
  destruct l as [|a l] using rev_ind; [reflexivity|].
  now rewrite rev_unit, last_last.
Qed.

End Positions.

(** ** Properties of the program *)



(** C2, as the claim has it, fails: position 0 does not fault.  On a line
    of two fields it selects the last one, and on a blank line, where it is
    a position other than 1, it selects the empty field. *)
Lemma C2_position_zero_selects_last :
  cut_line [0] ("a" ++ TAB ++ "b" ++ NL) = Ok "b" /\
  cut_line [0] NL = Ok "" /\
  ~ (forall line p, p <> 1 -> fields_of line = [""] ->
                    cut_line [p] line = Raise IndexError).
Proof.
  split; [reflexivity | split; [reflexivity|]].
  intros H. specialize (H NL 0). discriminate H; [lia | reflexivity].
Qed.

(** C2, amended.  On a line of [n] fields the positions that fault are
    exactly those above [n] and those at or below [-n]; the only exception
    raised is IndexError and it ends the loop, leaving standard output as
    it was.  On a blank line the positions that fault are exactly those
    other than 1 and 0. *)
Theorem C2_fault_iff_out_of_range (positions : list Z) (line : string) :
  (cut_line positions line = Raise IndexError <->
   Exists (fun p => p <= - nfields line \/ nfields line < p) positions)
  /\ (cut_line positions NL = Raise IndexError <->
      Exists (fun p => p <> 1 /\ p <> 0) positions)
  /\ (forall e rest out,
        cut_line positions line = Raise e ->
        loop (map (fun x => x - 1) positions) (Line line :: rest) out
        = (out, Some IndexError)).
Proof.
  pose proof cut_line_raise as Hiff.
  split; [apply Hiff | split].
  - rewrite Hiff. change (nfields NL) with 1.
    split; intros H; (eapply Exists_impl; [|exact H]); cbv beta; intros; lia.
  - intros e rest out H. cbn [loop]. unfold cut_line in H. rewrite H.
    now rewrite (line_output_exn _ _ _ H).
Qed.

(** C3.  When every requested position is positive and a line has fewer
    fields than the largest of them, the line raises IndexError.  Nothing
    catches it: whatever comes before and after the line in the input,
    the run ends with an exception (exit status 1), standard output holds
    what the earlier lines printed and nothing of the later ones; and when
    all earlier lines went through, the exception is this IndexError. *)
Theorem C3_short_line_is_fatal (positions : list Z) (line : string) :
  Forall (fun p => 1 <= p) positions ->
  nfields line < max_position positions ->
  cut_line positions line = Raise IndexError
  /\ forall w files before after,
      fileinput_input w files = (before ++ Line line :: after)%list ->
      let field_indicies := map (fun x => x - 1) positions in
      let r := main w (Args positions files) in
      fst r = printed (outputs field_indicies before)
      /\ exit_status r = 1
      /\ (List.length (outputs field_indicies before) = List.length before ->
          snd r = Some IndexError).
Proof.
  intros Hpos Hlt.
  assert (Hraise : cut_line positions line = Raise IndexError).
  { apply cut_line_raise. apply Exists_exists.
    exists (max_position positions). split; [|right; exact Hlt].
    apply max_position_In. intros ->. cbn [max_position] in Hlt.
    pose proof (nfields_pos line). lia. }
  split; [exact Hraise|].
  intros w files before after Hin field_indicies r.
  subst r. unfold main. cbn [fields Cut.files]. fold field_indicies.
  rewrite Hin. unfold cut_line in Hraise. fold field_indicies in Hraise.
  destruct (loop_app_fault field_indicies before after line IndexError ""
                           Hraise) as [Hstop Hexn].
  split; [|split].
  - rewrite loop_fst. cbn [append].
    now rewrite (outputs_app_fault field_indicies before after line _ Hraise).
  - unfold exit_status.
    destruct (snd (loop field_indicies (before ++ Line line :: after) ""));
      [reflexivity | congruence].
  - exact Hexn.
Qed.

Lemma C3_witness :
  Forall (fun p => 1 <= p) [1; 3] /\
  nfields ("alice" ++ TAB ++ "30" ++ NL) < max_position [1; 3] /\
  main (World ("x" ++ TAB ++ "y" ++ TAB ++ "z" ++ NL ++
               "alice" ++ TAB ++ "30" ++ NL ++
               "u" ++ TAB ++ "v" ++ TAB ++ "w" ++ NL) (fun _ => None))
       (Args [1; 3] [])
  = ("x" ++ TAB ++ "z" ++ NL, Some IndexError).
Proof.
  assert (H1 : Forall (fun p => 1 <= p) [1; 3]) by (repeat constructor; lia).
  assert (H2 : nfields ("alice" ++ TAB ++ "30" ++ NL) < max_position [1; 3])
    by (vm_compute; reflexivity).
  split; [exact H1 | split; [exact H2|]].
  pose proof (proj2 (C3_short_line_is_fatal [1; 3] _ H1 H2)
                (World ("x" ++ TAB ++ "y" ++ TAB ++ "z" ++ NL ++
                        "alice" ++ TAB ++ "30" ++ NL ++
                        "u" ++ TAB ++ "v" ++ TAB ++ "w" ++ NL) (fun _ => None))
                []
                [Line ("x" ++ TAB ++ "y" ++ TAB ++ "z" ++ NL)]
                [Line ("u" ++ TAB ++ "v" ++ TAB ++ "w" ++ NL)]
                eq_refl) as (Hout & _ & Hexn).
  apply injective_projections; [exact Hout | exact (Hexn eq_refl)].
Defined.

(** C4, as the claim has it, fails on a string that ends in two newlines:
    [rstrip] removes both, where the removal of a single trailing newline
    would leave one, and the field printed is "a", not "a" with a newline. *)
Lemma C4_two_trailing_newlines_both_removed :
  rstrip NL ("a" ++ NL ++ NL) = "a" /\
  strip_one_newline ("a" ++ NL ++ NL) = "a" ++ NL /\
  cut_line [1] ("a" ++ NL ++ NL) = Ok "a" /\
  ~ (forall s, rstrip NL s = strip_one_newline s).
Proof.
  repeat split; try reflexivity.
  intros H. specialize (H ("a" ++ NL ++ NL)). discriminate H.
Qed.

(** C4, amended.  A string and the string followed by one more newline are
    processed alike.  What is removed before splitting is the whole run of
    newlines at the end of the string and nothing else: the string is what
    is kept followed by newlines only, and what is kept does not end in a
    newline.  A line as the file iterator yields it ends in at most one
    newline, so that there the removal is that of its single trailing
    newline. *)
Theorem C4_trailing_newlines_removed (positions : list Z) (s : string) :
  cut_line positions (s ++ NL) = cut_line positions s
  /\ (exists k, s = rstrip NL s ++ newlines k)
  /\ (forall t, rstrip NL s <> t ++ NL)
  /\ (forall content,
        In s (readlines content) -> rstrip NL s = strip_one_newline s).
Proof.
  split; [|split; [|split]].
  - unfold cut_line, line_output. now rewrite rstrip_app_NL.
  - apply rstrip_decomp.
  - apply rstrip_no_trailing_nl.
  - intros content Hin. exact (proj1 (rstrip_line content s Hin)).
Qed.

(** C5, as the claim has it, fails when the first file does not end in a
    newline: its last line and the first line of the second file are two
    lines for the file list and one line for the concatenated file. *)
Lemma C5_unterminated_first_file :
  let w := three_files "A" "B" "AB" "x" "y" ("x" ++ "y") in
  main w (Args [1] ["A"; "B"]) = ("x" ++ NL ++ "y" ++ NL, None) /\
  main w (Args [1] ["AB"]) = ("xy" ++ NL, None) /\
  main w (Args [1] ["A"; "B"]) <> main w (Args [1] ["AB"]).
Proof.
  cbv zeta. split; [reflexivity | split; [reflexivity | discriminate]].
Qed.

(** C5, amended.  When the content of the first file is empty or ends in a
    newline, running over the two files gives the same standard output and
    the same end of the run as running over one file that holds the first
    content followed by the second. *)
Theorem C5_concatenation (w : world) (positions : list Z)
        (a b c : string) (A B : string) :
  a <> "-" -> b <> "-" -> c <> "-" ->
  open w a = Some A -> open w b = Some B -> open w c = Some (A ++ B) ->
  A = "" \/ (exists A', A = A' ++ NL) ->
  main w (Args positions [a; b]) = main w (Args positions [c]).
Proof.
  intros Ha Hb Hc HA HB HC Hend.
  unfold main, fileinput_input. cbn [fields files fileinput_files].
  apply String.eqb_neq in Ha, Hb, Hc. rewrite Ha, Hb, Hc, HA, HB, HC.
  rewrite (readlines_app A B Hend), map_app, !app_nil_r. reflexivity.
Qed.

Lemma C5_witness :
  let w := three_files "A" "B" "AB" ("x" ++ NL) "y" (("x" ++ NL) ++ "y") in
  main w (Args [1] ["A"; "B"]) = main w (Args [1] ["AB"]).
Proof.
  cbv zeta.
  apply (C5_concatenation _ [1] "A" "B" "AB" ("x" ++ NL) "y");
    try discriminate; try reflexivity.
  right. exists "x". reflexivity.
Defined.



(** C8.  When the input is empty, whether it is standard input (no file
    names, or the name "-") or files that are all empty, nothing is
    written to standard output and the run ends normally, with exit
    status 0. *)
Theorem C8_empty_input (w : world) (args : Namespace) :
  (files args = [] \/ In "-" (files args) -> stdin w = "") ->
  (forall f, In f (files args) -> f <> "-" -> open w f = Some "") ->
  main w args = ("", None) /\ exit_status (main w args) = 0.
Proof.
  intros Hstdin Hfiles.
  assert (Hinput : fileinput_input w (files args) = []).
  { unfold fileinput_input. destruct (files args) as [|f rest] eqn:E.
    - apply fileinput_files_empty.
      + intros _. apply Hstdin. now left.
      + intros g [<-|[]] Hg. congruence.
    - apply fileinput_files_empty; [|exact Hfiles].
      intros Hin. apply Hstdin. now right. }
  unfold exit_status, main. rewrite Hinput. split; reflexivity.
Qed.

Lemma C8_witness :
  main (World "" (fun f => if String.eqb f "empty.tsv" then Some "" else None))
       (Args [1; 3] ["empty.tsv"; "-"; "empty.tsv"])
  = ("", None).
Proof.
  refine (proj1 (C8_empty_input
                   (World "" (fun f => if String.eqb f "empty.tsv"
                                       then Some "" else None))
                   (Args [1; 3] ["empty.tsv"; "-"; "empty.tsv"]) _ _)).
  - intros _. reflexivity.
  - cbn [files]. intros f [<-|[<-|[<-|[]]]] Hf;
      try reflexivity; now contradiction Hf.
Defined.

(** C9.  A position [p <= 0] is counted from the end of the line (the
    index [p - 1] is negative): on a line with at least [|p - 1|] fields no
    exception is raised and the field printed is the one [-p] places before
    the last; position 0 gives the last field, position -1 the one before
    it. *)
Theorem C9_nonpositive_positions_from_end (positions : list Z) (line : string) :
  Forall (fun p => p <= 0 /\ Z.abs (p - 1) <= nfields line) positions ->
  cut_line positions line = Ok (join TAB (map (field_from_end line) positions))
  /\ field_from_end line 0 = last (fields_of line) ""
  /\ field_from_end line (-1) = last (removelast (fields_of line)) "".
Proof.
  intros Hall. split; [|split].
  - unfold cut_line. rewrite line_output_ok.
    + rewrite map_map. do 2 f_equal. apply map_ext_in.
      intros p Hin. rewrite Forall_forall in Hall.
      destruct (Hall p Hin) as [Hp Hn].
      apply denoted_field_from_end; lia.
    + rewrite Forall_map. eapply Forall_impl; [|exact Hall].
      cbv beta. intros; lia.
  - apply nth_0_rev_last.
  - unfold field_from_end. change (Z.to_nat (- -1)) with 1%nat.
    destruct (fields_of line) as [|a l] using rev_ind; [reflexivity|].
    rewrite rev_unit, removelast_last. cbn [nth]. apply nth_0_rev_last.
Qed.

Lemma C9_witness :
  Forall (fun p => p <= 0 /\ Z.abs (p - 1) <= nfields ("a" ++ TAB ++ "b" ++ TAB ++ "c" ++ NL))
         [0; -1; -2] /\
  cut_line [0; -1; -2] ("a" ++ TAB ++ "b" ++ TAB ++ "c" ++ NL)
  = Ok ("c" ++ TAB ++ "b" ++ TAB ++ "a").
Proof.
  assert (H : Forall (fun p => p <= 0 /\ Z.abs (p - 1) <= nfields ("a" ++ TAB ++ "b" ++ TAB ++ "c" ++ NL))
                     [0; -1; -2])
    by (repeat constructor; vm_compute; discriminate).
  split; [exact H|].
  exact (proj1 (C9_nonpositive_positions_from_end [0; -1; -2] _ H)).
Defined.

(** C10.  Standard output is the sequence of the texts printed for the
    lines, each followed by one newline, and none of these texts holds a
    newline: every line written ends in exactly one newline.  This holds
    for a last input line without a newline as for the others: an input
    that is one line without its newline gives the same single output line,
    newline included, as that line with its newline. *)
Theorem C10_one_newline_per_output_line (w : world) (args : Namespace) :
  let field_indicies := map (fun x => x - 1) (fields args) in
  let input := fileinput_input w (files args) in
  fst (main w args) = printed (outputs field_indicies input)
  /\ Forall (fun o => mem_char nl o = false) (outputs field_indicies input)
  /\ forall body o,
      mem_char nl body = false -> body <> "" ->
      line_output field_indicies (body ++ NL) = Ok o ->
      main (World body (open w)) (Args (fields args) []) = (o ++ NL, None)
      /\ main (World (body ++ NL) (open w)) (Args (fields args) [])
         = (o ++ NL, None)
      /\ mem_char nl o = false.
Proof.
  intros field_indicies input. split; [|split].
  - unfold main. fold field_indicies. fold input. now rewrite loop_fst.
  - apply outputs_no_nl. intros l Hin.
    exact (fileinput_files_lines _ _ _ l Hin).
  - intros body o Hbody Hne Ho.
    assert (Ho' : line_output field_indicies body = Ok o).
    { unfold line_output in *. now rewrite rstrip_app_NL in Ho. }
    destruct (readlines_one_line body Hbody) as [Hr1 Hr2].
    unfold main, fileinput_input.
    cbn [fields files fileinput_files stdin String.eqb Ascii.eqb Bool.eqb].
    fold field_indicies. rewrite Hr1, (Hr2 Hne).
    cbn [map app loop]. rewrite Ho, Ho'. unfold print. cbn [append].
    repeat split.
    apply (line_output_no_nl_stripped field_indicies body o); [|exact Ho'].
    now rewrite rstrip_no_nl.
Qed.

(** ** Further properties of the loop and of the input iterator *)

Section Runs.

(** The printed text of a line, by cases on the positions. *)
Lemma cut_line_cases (positions : list Z) (line : string) :
  (Forall (fun p => - nfields line < p <= nfields line) positions /\
   cut_line positions line
   = Ok (join TAB (map (fun p => denoted (fields_of line) (p - 1)) positions)))
  \/
  (Exists (fun p => p <= - nfields line \/ nfields line < p) positions /\
   cut_line positions line = Raise IndexError).
Proof.
  unfold cut_line.
  destruct (line_output_cases (map (fun x => x - 1) positions) line)
    as [[Hall H]|[Hex H]]; [left | right]; rewrite H.
  - rewrite map_map. split; [|reflexivity].
    rewrite Forall_map in Hall. eapply Forall_impl; [|exact Hall].
    cbv beta. intros; lia.
  - split; [|reflexivity].
    rewrite Exists_map in Hex. eapply Exists_impl; [|exact Hex].
    cbv beta. intros; lia.
Qed.

Lemma cut_line_fine (positions : list Z) (line : string) :
  item_fine positions (Line line) <->
  exists o, cut_line positions line = Ok o.
Proof.
  cbn [item_fine].
  destruct (cut_line_cases positions line) as [[Hall H]|[Hex H]]; rewrite H.
  - split; [eauto | intros _; exact Hall].
  - split; [|intros [o Ho]; discriminate].
    intros Hall. exfalso.
    eapply Forall_Exists_absurd; [|exact Hall|exact Hex].
    cbv beta. intros; lia.
Qed.

(** The loop ends without an exception exactly when every item is fine. *)
Lemma loop_ends_normally (positions : list Z) (input : list item) :
  forall out,
    snd (loop (map (fun x => x - 1) positions) input out) = None <->
    Forall (item_fine positions) input.
Proof.
  induction input as [|[l|f] rest IH]; intros out; cbn [loop].
  - cbn [snd]. split; [constructor | reflexivity].
  - fold (cut_line positions l).
    destruct (cut_line positions l) as [o|e] eqn:E.
    + rewrite IH. split.
      * intros H. constructor; [|exact H]. apply cut_line_fine. eauto.
      * intros H. now inversion H.
    + cbn [snd]. split; [discriminate|].
      intros H. inversion H as [|? ? Hl _]; subst.
      apply cut_line_fine in Hl as [o Ho]. congruence.
  - cbn [snd]. split; [discriminate|].
    intros H. inversion H as [|? ? Hf _]; subst. destruct Hf.
Qed.

(** When every item is fine, the input is a list of lines and each has
    its output. *)
Lemma fine_outputs (positions : list Z) (input : list item) :
  Forall (item_fine positions) input ->
  exists lines,
    input = map Line lines /\
    Forall2 (fun l o => cut_line positions l = Ok o) lines
            (outputs (map (fun x => x - 1) positions) input).
Proof.
  induction input as [|[l|f] rest IH]; intros H.
  - exists []. split; [reflexivity | constructor].
  - inversion H as [|? ? Hl Hrest]; subst.
    destruct (IH Hrest) as (lines & -> & Hout).
    apply cut_line_fine in Hl as [o Ho].
    exists (l :: lines). split; [reflexivity|].
    cbn [outputs]. fold (cut_line positions l). rewrite Ho.
    constructor; assumption.
  - inversion H as [|? ? Hf _]; subst. destruct Hf.
Qed.

(** The iterator fails to open only a file that was named, is not standard
    input and cannot be opened. *)
Lemma fileinput_files_failed (open : string -> option string)
      (files : list string) :
  forall stdin f,
    In (OpenFailed f) (fileinput_files open stdin files) ->
    In f files /\ f <> "-" /\ open f = None.
Proof.
  induction files as [|g rest IH]; intros stdin f Hin; [destruct Hin|].
  cbn [fileinput_files] in Hin.
  destruct (String.eqb_spec g "-") as [->|Hne].
  - apply in_app_or in Hin as [Hin|Hin].
    + apply in_map_iff in Hin as (l & Hl & _). discriminate.
    + destruct (IH _ _ Hin) as (H1 & H2 & H3). repeat split; auto. now right.
  - destruct (open g) as [content|] eqn:E.
    + apply in_app_or in Hin as [Hin|Hin].
      * apply in_map_iff in Hin as (l & Hl & _). discriminate.
      * destruct (IH _ _ Hin) as (H1 & H2 & H3). repeat split; auto. now right.
    + destruct Hin as [[= <-]|[]]. repeat split; auto. now left.
Qed.

(** Reading a list of files and then another: the second list is reached
    when every file of the first could be opened, with what the first
    left of standard input. *)
Lemma fileinput_files_app (open : string -> option string)
      (xs ys : list string) :
  forall stdin,
    fileinput_files open stdin (xs ++ ys)
    = (fileinput_files open stdin xs
       ++ (if all_open open xs
           then fileinput_files open (stdin_after stdin xs) ys
           else []))%list.
Proof.
  induction xs as [|x xs IH]; intros stdin; [reflexivity|].
  cbn [app fileinput_files all_open forallb].
  unfold stdin_after. cbn [existsb].
  destruct (String.eqb x "-") eqn:Ex.
  - cbn [orb andb]. rewrite IH, <- app_assoc. do 2 f_equal.
    unfold stdin_after. now destruct (existsb _ xs).
  - destruct (open x) as [content|]; cbn [orb andb].
    + rewrite IH, <- app_assoc. reflexivity.
    + reflexivity.
Qed.

(** When some file cannot be opened, the loop does not end normally. *)
Lemma not_all_open_raises (field_indicies : list Z)
      (open : string -> option string) (files : list string) :
  all_open open files = false ->
  forall stdin out,
    snd (loop field_indicies (fileinput_files open stdin files) out) <> None.
Proof.
  induction files as [|f rest IH]; intros Hall stdin out; [discriminate|].
  cbn [all_open forallb] in Hall. cbn [fileinput_files].
  destruct (String.eqb f "-").
  - cbn [orb andb] in Hall. rewrite loop_app.
    destruct (loop field_indicies (map Line (readlines stdin)) out)
      as [o [e|]]; [discriminate|].
    now apply IH.
  - destruct (open f) as [content|]; cbn [orb andb] in Hall.
    + rewrite loop_app.
      destruct (loop field_indicies (map Line (readlines content)) out)
        as [o [e|]]; [discriminate|].
      now apply IH.
    + discriminate.
Qed.

(** The loop on a standard output that already holds [out]. *)
Lemma loop_out (field_indicies : list Z) (input : list item) (out : string) :
  loop field_indicies input out
  = (out ++ fst (loop field_indicies input ""),
     snd (loop field_indicies input "")).
Proof.
  rewrite (surjective_pairing (loop field_indicies input out)).
  now rewrite !loop_fst, (loop_snd field_indicies input out "").
Qed.

(** Reading back what was printed: one line per text, when no text holds
    a newline. *)
Lemma readlines_printed (outs : list string) :
  Forall (fun o => mem_char nl o = false) outs ->
  readlines (printed outs) = map (fun o => o ++ NL) outs.
Proof.
  induction outs as [|o outs IH]; intros H; [reflexivity|].
  inversion H as [|? ? Ho Houts]; subst.
  cbn [printed map]. rewrite <- append_assoc, readlines_app_NL.
  rewrite (proj1 (readlines_one_line o Ho)), (IH Houts). reflexivity.
Qed.

End Runs.

Section Selection.

(** The fields of a printed line are the selected fields of the input
    line, whatever the sign of the positions. *)
Lemma cut_line_split (positions : list Z) (line o : string) :
  positions <> [] ->
  cut_line positions line = Ok o ->
  Forall (fun p => - nfields line < p <= nfields line) positions /\
  split tab o = map (fun p => denoted (fields_of line) (p - 1)) positions.
Proof.
  intros Hne Ho.
  destruct (cut_line_cases positions line) as [[Hall H]|[_ H]];
    rewrite H in Ho; [|discriminate].
  injection Ho as <-. split; [exact Hall|].
  apply split_join.
  - destruct positions; [congruence | discriminate].
  - rewrite Forall_map. eapply Forall_impl; [|exact Hall].
    cbv beta. intros p Hp.
    pose proof (fields_of_no_tab line) as Hnt.
    rewrite Forall_forall in Hnt. apply Hnt.
    apply denoted_In. unfold nfields in Hp. lia.
Qed.

End Selection.

(** ** Further properties of the program *)

(** X3.  When the run ends normally, standard output has exactly one line
    per input line, in the order of the input: read back line by line, it
    is the list of the texts printed for the input lines, each followed by
    a newline. *)
Theorem X3_one_output_line_per_input_line (w : world) (args : Namespace) :
  snd (main w args) = None ->
  exists lines outs,
    fileinput_input w (files args) = map Line lines /\
    Forall2 (fun l o => cut_line (fields args) l = Ok o) lines outs /\
    readlines (fst (main w args)) = map (fun o => o ++ NL) outs /\
    List.length (readlines (fst (main w args))) = List.length lines.
Proof.
  intros Hend. unfold main in *.
  apply loop_ends_normally in Hend.
  destruct (fine_outputs _ _ Hend) as (lines & Hin & Hout).
  exists lines, (outputs (map (fun x => x - 1) (fields args))
                         (fileinput_input w (files args))).
  assert (Hread : readlines
                    (fst (loop (map (fun x => x - 1) (fields args))
                               (fileinput_input w (files args)) ""))
                  = map (fun o => o ++ NL)
                        (outputs (map (fun x => x - 1) (fields args))
                                 (fileinput_input w (files args)))).
  { rewrite loop_fst. cbn [append]. apply readlines_printed.
    apply outputs_no_nl. intros l Hl.
    exact (fileinput_files_lines _ _ _ l Hl). }
  repeat split; try assumption.
  rewrite Hread, length_map. symmetry. exact (Forall2_length Hout).
Qed.

Lemma X3_witness :
  exists lines outs,
    fileinput_input (World ("a" ++ TAB ++ "b" ++ NL ++ "c" ++ TAB ++ "d") (fun _ => None)) []
    = map Line lines /\
    Forall2 (fun l o => cut_line [2; 1] l = Ok o) lines outs /\
    readlines (fst (main (World ("a" ++ TAB ++ "b" ++ NL ++ "c" ++ TAB ++ "d") (fun _ => None))
                         (Args [2; 1] [])))
    = map (fun o => o ++ NL) outs /\
    List.length (readlines (fst (main (World ("a" ++ TAB ++ "b" ++ NL ++ "c" ++ TAB ++ "d") (fun _ => None))
                                      (Args [2; 1] []))))
    = List.length lines.
Proof.
  exact (X3_one_output_line_per_input_line
           (World ("a" ++ TAB ++ "b" ++ NL ++ "c" ++ TAB ++ "d") (fun _ => None))
           (Args [2; 1] []) eq_refl).
Defined.

(** X4.  A printed line has as many tab-separated fields as positions
    were requested, and each of them is a field of the input line: no
    field is made up or altered. *)
Theorem X4_output_fields_come_from_the_line (positions : list Z)
        (line o : string) :
  positions <> [] ->
  cut_line positions line = Ok o ->
  List.length (split tab o) = List.length positions /\
  Forall (fun f => In f (fields_of line)) (split tab o).
Proof.
  intros Hne Ho.
  destruct (cut_line_split positions line o Hne Ho) as [Hall ->].
  split; [apply length_map|].
  rewrite Forall_map. eapply Forall_impl; [|exact Hall].
  cbv beta. intros p Hp. apply denoted_In. unfold nfields in Hp. lia.
Qed.

Lemma X4_witness :
  [0; 2; -1] <> [] /\
  cut_line [0; 2; -1] ("a" ++ TAB ++ "b" ++ TAB ++ "c" ++ NL)
  = Ok ("c" ++ TAB ++ "b" ++ TAB ++ "b") /\
  List.length (split tab ("c" ++ TAB ++ "b" ++ TAB ++ "b")) = List.length [0; 2; -1].
Proof.
  assert (H1 : [0; 2; -1] <> []) by discriminate.
  assert (H2 : cut_line [0; 2; -1] ("a" ++ TAB ++ "b" ++ TAB ++ "c" ++ NL)
               = Ok ("c" ++ TAB ++ "b" ++ TAB ++ "b")) by reflexivity.
  split; [exact H1 | split; [exact H2|]].
  exact (proj1 (X4_output_fields_come_from_the_line _ _ _ H1 H2)).
Defined.

Section Pipeline.

Variables earlier later : list Z.
Hypothesis earlier_not_nil : earlier <> [].
Hypothesis later_in_range :
  Forall (fun q => 1 <= q <= Z.of_nat (List.length earlier)) later.

(** Cutting a printed line again is cutting the input line once, at the
    composed positions. *)
Lemma cut_line_compose (line o : string) :
  cut_line earlier line = Ok o ->
  mem_char nl o = false ->
  cut_line later (o ++ NL) = cut_line (compose_positions earlier later) line.
Proof.
  intros Ho Hnl.
  destruct (cut_line_split earlier line o earlier_not_nil Ho) as [Hall Hsplit].
  set (g := fun p => denoted (fields_of line) (p - 1)) in *.
  assert (Hfields : fields_of (o ++ NL) = map g earlier).
  { unfold fields_of. now rewrite rstrip_app_NL, (rstrip_no_nl o Hnl). }
  rewrite cut_line_selects.
  2:{ unfold nfields. rewrite Hfields, length_map. exact later_in_range. }
  destruct (cut_line_cases (compose_positions earlier later) line)
    as [[_ H]|[Hex _]].
  - rewrite H. unfold compose_positions. rewrite map_map. do 2 f_equal.
    apply map_ext_in. intros q Hq.
    rewrite Forall_forall in later_in_range.
    pose proof (later_in_range q Hq) as Hrange.
    unfold field. rewrite Hfields.
    rewrite (nth_indep _ EmptyString (g 0)) by (rewrite length_map; lia).
    now rewrite map_nth.
  - exfalso. unfold compose_positions in Hex.
    rewrite Exists_map in Hex. apply Exists_exists in Hex as (q & Hq & Hbad).
    rewrite Forall_forall in later_in_range, Hall.
    pose proof (later_in_range q Hq) as Hrange.
    assert (Hin : In (nth (Z.to_nat (q - 1)) earlier 0) earlier)
      by (apply nth_In; lia).
    specialize (Hall _ Hin). cbv beta in Hall. lia.
Qed.

(** The same for a whole input that went through. *)
Lemma loop_compose (input : list item) :
  Forall (item_fine earlier) input ->
  (forall l, In (Line l) input -> exists content, In l (readlines content)) ->
  forall out,
    loop (map (fun x => x - 1) later)
         (map Line (map (fun o => o ++ NL)
                        (outputs (map (fun x => x - 1) earlier) input)))
         out
    = loop (map (fun x => x - 1) (compose_positions earlier later)) input out.
Proof.
  induction input as [|[l|f] rest IH]; intros Hfine Hlines out.
  - reflexivity.
  - inversion Hfine as [|? ? Hl Hrest]; subst.
    apply cut_line_fine in Hl as [o Ho].
    destruct (Hlines l (or_introl eq_refl)) as [content Hin].
    pose proof (line_output_no_nl _ content l o Hin Ho) as Hnl.
    pose proof (cut_line_compose l o Ho Hnl) as Hc.
    unfold cut_line in Ho, Hc.
    cbn [outputs]. rewrite Ho. cbn [map loop]. rewrite Hc.
    destruct (line_output (map (fun x => x - 1)
                               (compose_positions earlier later)) l);
      [|reflexivity].
    apply IH; [exact Hrest | intros l' Hl'; apply Hlines; now right].
  - inversion Hfine as [|? ? Hf _]; subst. destruct Hf.
Qed.

End Pipeline.

(** X5.  Two runs in a pipeline are one run: when a run with the positions
    [ps] ends normally, running the program with positions [qs] (each
    between 1 and the number of positions in [ps]) on its standard output
    gives the same output and the same end as running it on the original
    input with, for each [q] of [qs], the [q]-th position of [ps]. *)
Theorem X5_pipeline_is_composition (w : world) (args : Namespace)
        (qs : list Z) (open' : string -> option string) :
  fields args <> [] ->
  snd (main w args) = None ->
  Forall (fun q => 1 <= q <= Z.of_nat (List.length (fields args))) qs ->
  main (World (fst (main w args)) open') (Args qs [])
  = main w (Args (compose_positions (fields args) qs) (files args)).
Proof.
  intros Hne Hend Hqs. unfold main in *.
  apply loop_ends_normally in Hend.
  assert (Hlines : forall l, In (Line l) (fileinput_input w (files args)) ->
                             exists content, In l (readlines content))
    by (intros l Hl; exact (fileinput_files_lines _ _ _ l Hl)).
  cbn [fields files]. rewrite loop_fst. cbn [append].
  unfold fileinput_input at 1.
  cbn [fileinput_files stdin String.eqb Ascii.eqb Bool.eqb].
  rewrite app_nil_r, readlines_printed by (now apply outputs_no_nl).
  now apply loop_compose.
Qed.

Lemma X5_witness :
  main (World (fst (main (World ("a" ++ TAB ++ "b" ++ TAB ++ "c" ++ NL ++
                                 "d" ++ TAB ++ "e" ++ TAB ++ "f" ++ NL)
                                (fun _ => None))
                         (Args [3; 0; 1] [])))
              (fun _ => None))
       (Args [2; 2; 3] [])
  = main (World ("a" ++ TAB ++ "b" ++ TAB ++ "c" ++ NL ++
                 "d" ++ TAB ++ "e" ++ TAB ++ "f" ++ NL)
                (fun _ => None))
         (Args [0; 0; 1] []).
Proof.
  refine (X5_pipeline_is_composition
            (World ("a" ++ TAB ++ "b" ++ TAB ++ "c" ++ NL ++
                    "d" ++ TAB ++ "e" ++ TAB ++ "f" ++ NL)
                   (fun _ => None))
            (Args [3; 0; 1] []) [2; 2; 3] (fun _ => None) _ eq_refl _).
  - discriminate.
  - cbn [fields List.length]. repeat constructor; lia.
Defined.

(** X6.  Reading a list of files and then another, neither empty and the
    first without "-": when the run over the first list ends normally, the
    run over both prints what the first run prints followed by what the
    run over the second list prints, and ends as that one; when the run
    over the first list ends with an exception, the run over both is that
    run. *)
Theorem X6_file_lists_in_sequence (w : world) (positions : list Z)
        (xs ys : list string) :
  xs <> [] -> ys <> [] -> ~ In "-" xs ->
  main w (Args positions (xs ++ ys))
  = match snd (main w (Args positions xs)) with
    | None => (fst (main w (Args positions xs))
               ++ fst (main w (Args positions ys)),
               snd (main w (Args positions ys)))
    | Some _ => main w (Args positions xs)
    end.
Proof.
  intros Hxs Hys Hdash. unfold main, fileinput_input. cbn [fields files].
  set (fi := map (fun x => x - 1) positions).
  assert (Hstdin : stdin_after (stdin w) xs = stdin w).
  { unfold stdin_after.
    destruct (existsb (fun f => String.eqb f "-") xs) eqn:E; [|reflexivity].
    apply existsb_exists in E as (f & Hf & Heq).
    apply String.eqb_eq in Heq. subst f. contradiction. }
  replace (match (xs ++ ys)%list with [] => ["-"] | _ :: _ => (xs ++ ys)%list end)
    with (xs ++ ys)%list by (destruct xs; [congruence | reflexivity]).
  replace (match xs with [] => ["-"] | _ :: _ => xs end)
    with xs by (destruct xs; [congruence | reflexivity]).
  replace (match ys with [] => ["-"] | _ :: _ => ys end)
    with ys by (destruct ys; [congruence | reflexivity]).
  rewrite fileinput_files_app, Hstdin, loop_app.
  pose proof (not_all_open_raises fi (open w) xs) as Hraise.
  destruct (all_open (open w) xs).
  - destruct (loop fi (fileinput_files (open w) (stdin w) xs) "")
      as [o [e|]]; cbn [fst snd]; [reflexivity | apply loop_out].
  - specialize (Hraise eq_refl (stdin w) "").
    destruct (loop fi (fileinput_files (open w) (stdin w) xs) "")
      as [o [e|]]; cbn [fst snd] in *; [reflexivity | congruence].
Qed.

Lemma X6_witness :
  let w := three_files "A" "B" "C" ("a" ++ TAB ++ "b") ("c" ++ TAB ++ "d" ++ NL) "e" in
  main w (Args [2] (["A"; "B"] ++ ["C"; "B"]))
  = ("b" ++ NL ++ "d" ++ NL, Some IndexError).
Proof.
  cbv zeta.
  rewrite (X6_file_lists_in_sequence
             (three_files "A" "B" "C" ("a" ++ TAB ++ "b")
                          ("c" ++ TAB ++ "d" ++ NL) "e")
             [2] ["A"; "B"] ["C"; "B"]).
  - reflexivity.
  - discriminate.
  - discriminate.
  - intros [H|[H|[]]]; discriminate H.
Defined.

(** X7.  A file that cannot be opened is found out only when its turn
    comes: the files named before it are read and their lines printed
    first, and the run then ends with the IOError of that file, unless it
    had ended with an exception before; the files named after it are not
    looked at.  When it is the first file, nothing is printed. *)
Theorem X7_unopenable_file (w : world) (positions : list Z)
        (f : string) (after : list string) :
  f <> "-" -> open w f = None ->
  main w (Args positions (f :: after)) = ("", Some (IOError f))
  /\ forall before,
      before <> [] ->
      main w (Args positions (before ++ f :: after))
      = (fst (main w (Args positions before)),
         match snd (main w (Args positions before)) with
         | None => Some (IOError f)
         | Some e => Some e
         end).
Proof.
  intros Hf Hopen. apply String.eqb_neq in Hf.
  assert (Hfail : forall stdin,
             fileinput_files (open w) stdin (f :: after) = [OpenFailed f])
    by (intros stdin; cbn [fileinput_files]; now rewrite Hf, Hopen).
  split.
  - unfold main, fileinput_input. cbn [fields files]. now rewrite Hfail.
  - intros before Hne. unfold main, fileinput_input. cbn [fields files].
    set (fi := map (fun x => x - 1) positions).
    replace (match (before ++ f :: after)%list with
             | [] => ["-"] | _ :: _ => (before ++ f :: after)%list end)
      with (before ++ f :: after)%list
      by (destruct before; [congruence | reflexivity]).
    replace (match before with [] => ["-"] | _ :: _ => before end)
      with before by (destruct before; [congruence | reflexivity]).
    rewrite fileinput_files_app, Hfail, loop_app.
    pose proof (not_all_open_raises fi (open w) before) as Hraise.
    destruct (all_open (open w) before).
    + destruct (loop fi (fileinput_files (open w) (stdin w) before) "")
        as [o [e|]]; reflexivity.
    + specialize (Hraise eq_refl (stdin w) "").
      destruct (loop fi (fileinput_files (open w) (stdin w) before) "")
        as [o [e|]]; cbn [fst snd] in *; [reflexivity | congruence].
Qed.

Lemma X7_witness :
  let w := three_files "A" "B" "C" ("a" ++ TAB ++ "b" ++ NL) "c" "d" in
  main w (Args [1] ["A"; "B"; "missing"; "C"])
  = ("a" ++ NL ++ "c" ++ NL, Some (IOError "missing")).
Proof.
  cbv zeta.
  refine (proj2 (X7_unopenable_file
                   (three_files "A" "B" "C" ("a" ++ TAB ++ "b" ++ NL) "c" "d")
                   [1] "missing" ["C"] _ eq_refl)
                ["A"; "B"] _); discriminate.
Defined.

Section Causes.

Lemma denoted_selected (line : string) (p : Z) :
  - nfields line < p <= nfields line ->
  denoted (fields_of line) (p - 1) = selected line p.
Proof.
  intros Hp. unfold selected. destruct (Z.leb_spec 1 p).
  - now apply denoted_field.
  - apply denoted_field_from_end; lia.
Qed.

(** What an exception of the loop tells about the input. *)
Lemma loop_cause (field_indicies : list Z) (input : list item) :
  forall out e,
    snd (loop field_indicies input out) = Some e ->
    match e with
    | IndexError =>
        exists l, In (Line l) input
                  /\ line_output field_indicies l = Raise IndexError
    | IOError f => In (OpenFailed f) input
    end.
Proof.
  induction input as [|[l|f] rest IH]; intros out e; cbn [loop snd].
  - discriminate.
  - destruct (line_output field_indicies l) as [o|e'] eqn:E.
    + intros H. specialize (IH _ _ H). destruct e as [|f].
      * destruct IH as (l' & Hin & Hl'). exists l'. split; [now right | exact Hl'].
      * now right.
    + pose proof (line_output_exn _ _ _ E) as He. subst e'.
      cbn [snd]. intros [= <-].
      exists l. split; [now left | exact E].
  - intros [= <-]. now left.
Qed.

End Causes.

(** C7.  For a non-empty list of positions in range, the loop writes one
    line whose tab-separated fields are the selected fields, one for each
    requested position and in the order requested, followed by a newline:
    a position requested several times gives its field at each of its
    occurrences.  The run with the positions 2, 2 on the input line
    a, b, c writes the line b, b. *)
Theorem C7_duplicates_emitted_per_occurrence (positions : list Z) (line : string) :
  positions <> [] ->
  Forall (fun p => - nfields line < p <= nfields line) positions ->
  (exists o,
      cut_line positions line = Ok o
      /\ split tab o = map (selected line) positions
      /\ forall rest out,
          loop (map (fun x => x - 1) positions) (Line line :: rest) out
          = loop (map (fun x => x - 1) positions) rest (out ++ o ++ NL))
  /\ forall open,
      main (World ("a" ++ TAB ++ "b" ++ TAB ++ "c") open) (Args [2; 2] [])
      = ("b" ++ TAB ++ "b" ++ NL, None).
Proof.
  intros Hne Hall. split; [|reflexivity].
  destruct (proj1 (cut_line_fine positions line) Hall) as [o Ho].
  exists o. split; [exact Ho | split].
  - destruct (cut_line_split positions line o Hne Ho) as [_ ->].
    apply map_ext_in. intros p Hp. rewrite Forall_forall in Hall.
    apply denoted_selected. now apply Hall.
  - intros rest out. cbn [loop]. unfold cut_line in Ho. now rewrite Ho.
Qed.

Lemma C7_witness :
  [2; 2; 0] <> [] /\
  Forall (fun p => - nfields ("a" ++ TAB ++ "b" ++ TAB ++ "c" ++ NL) < p
                   <= nfields ("a" ++ TAB ++ "b" ++ TAB ++ "c" ++ NL))
         [2; 2; 0] /\
  exists o,
    cut_line [2; 2; 0] ("a" ++ TAB ++ "b" ++ TAB ++ "c" ++ NL) = Ok o
    /\ split tab o = ["b"; "b"; "c"]
    /\ forall rest out,
        loop (map (fun x => x - 1) [2; 2; 0])
             (Line ("a" ++ TAB ++ "b" ++ TAB ++ "c" ++ NL) :: rest) out
        = loop (map (fun x => x - 1) [2; 2; 0]) rest (out ++ o ++ NL).
Proof.
  assert (H1 : [2; 2; 0] <> []) by discriminate.
  assert (H2 : Forall (fun p => - nfields ("a" ++ TAB ++ "b" ++ TAB ++ "c" ++ NL) < p
                                <= nfields ("a" ++ TAB ++ "b" ++ TAB ++ "c" ++ NL))
                      [2; 2; 0])
    by (repeat constructor; vm_compute; (reflexivity || discriminate)).
  split; [exact H1 | split; [exact H2|]].
  exact (proj1 (C7_duplicates_emitted_per_occurrence [2; 2; 0] _ H1 H2)).
Defined.

(** X1.  When the iterator fails to open a file, or yields a line on
    which some requested position [p] is outside [-n < p <= n] for the
    number [n] of fields of the line, the run ends with exit status 1,
    wherever in the input this happens. *)
Theorem X1_bad_input_gives_exit_status_1 (w : world) (args : Namespace)
        (it : item) :
  In it (fileinput_input w (files args)) ->
  ~ item_fine (fields args) it ->
  exit_status (main w args) = 1.
Proof.
  intros Hin Hbad. unfold exit_status, main.
  destruct (snd (loop (map (fun x => x - 1) (fields args))
                      (fileinput_input w (files args)) "")) eqn:E;
    [reflexivity | exfalso].
  apply loop_ends_normally in E. rewrite Forall_forall in E.
  exact (Hbad (E it Hin)).
Qed.

Lemma X1_witness :
  exit_status
    (main (World ("a" ++ TAB ++ "b" ++ NL ++ "c" ++ NL ++ "d" ++ TAB ++ "e" ++ NL)
                 (fun _ => None))
          (Args [1; -1] []))
  = 1.
Proof.
  apply (X1_bad_input_gives_exit_status_1 _ _ (Line ("c" ++ NL))).
  - right. left. reflexivity.
  - cbn [item_fine fields]. intros H.
    inversion H as [|? ? _ H']; subst. inversion H' as [|? ? Hp _]; subst.
    vm_compute in Hp. destruct Hp as [Hp _]. discriminate Hp.
Defined.

(** X2.  What the exception that ended a run tells: after IndexError,
    some input line has a requested position outside its range; after the
    IOError of a file name, that file was named on the command line, is
    not "-" and cannot be opened. *)
Theorem X2_cause_of_an_exception (w : world) (args : Namespace) (e : exn) :
  snd (main w args) = Some e ->
  match e with
  | IndexError =>
      exists l, In (Line l) (fileinput_input w (files args))
                /\ Exists (fun p => p <= - nfields l \/ nfields l < p)
                          (fields args)
  | IOError f => In f (files args) /\ f <> "-" /\ open w f = None
  end.
Proof.
  unfold main. intros H. apply loop_cause in H. destruct e as [|f].
  - destruct H as (l & Hin & Hl). exists l. split; [exact Hin|].
    now apply cut_line_raise.
  - unfold fileinput_input in H.
    apply fileinput_files_failed in H as (H1 & H2 & H3).
    destruct (files args) as [|g rest]; [|now repeat split].
    destruct H1 as [<-|[]]. congruence.
Qed.

Lemma X2_witness :
  In "missing.tsv" ["in.tsv"; "missing.tsv"] /\ "missing.tsv" <> "-" /\
  (if String.eqb "missing.tsv" "in.tsv"
   then Some ("a" ++ TAB ++ "b" ++ NL) else None) = None.
Proof.
  exact (X2_cause_of_an_exception
           (World "" (fun f => if String.eqb f "in.tsv"
                               then Some ("a" ++ TAB ++ "b" ++ NL) else None))
           (Args [2] ["in.tsv"; "missing.tsv"])
           (IOError "missing.tsv") eq_refl).
Defined.
